(** * Roman numeral adder ([rome.py]): a shallow embedding and its properties

    The program is one Python function, [add(augend, addend)], that adds two
    Roman numerals over the symbols I, V, X by rewriting strings: expand the
    subtractive pairs, concatenate, sort, and collapse again.

    Python strings are modelled as lists of characters, the built-in string
    operations the function calls ([str.replace], [sorted(..., reverse=True)],
    [''.join], [in], [==]) as functions on those lists, and the raised
    exception as an error result.  Characters are 8-bit codes: the program
    tells I, V and X from all other characters and orders characters by code
    point, and does nothing else with them. *)

From Stdlib Require Import List Ascii String Arith PeanoNat Bool Lia ZArith.
From Stdlib Require Import Permutation Sorted.
Import ListNotations.

Local Open Scope char_scope.
Local Open Scope list_scope.

(** ** Python values and results *)

(** A Python [str]: the sequence of its characters. *)
Definition str : Type := list ascii.

(** String literals of the source are written [#"IX"]. *)
Notation "# s" := (list_ascii_of_string s) (at level 1, s at level 0, format "# s").

(** The values [add] can be called with.  Only the distinction between a
    [str] and anything else matters to it. *)
Inductive pyobj : Type :=
| PStr (s : str)
| PInt (z : Z)
| PNone.

(** [isinstance(o, str)] *)
Definition isinstance_str (o : pyobj) : bool :=
  match o with
  | PStr _ => true
  | _ => false
  end.

Inductive exn : Type :=
| ValueError.

Inductive result (A : Type) : Type :=
| Ok (a : A)
| Raise (e : exn).
Arguments Ok {A} a.
Arguments Raise {A} e.

Definition bind {A B : Type} (r : result A) (k : A -> result B) : result B :=
  match r with
  | Ok a => k a
  | Raise e => Raise e
  end.

Notation "x <- r ;; k" := (bind r (fun x => k))
  (at level 61, r at next level, right associativity).

(** ** The built-in string operations *)

Module PyStr.

(** [s.startswith(old)] *)
Fixpoint starts_with (old s : str) : bool :=
  match old with
  | [] => true
  | o :: old' =>
    match s with
    | [] => false
    | c :: s' => Ascii.eqb o c && starts_with old' s'
    end
  end.

(** The scan of [str.replace] for a non-empty [old]: [skip] counts the
    characters of a matched occurrence that are still to be passed over, so
    that occurrences are taken leftmost first and never overlap, and the
    inserted text is never scanned. *)
Fixpoint replace_from (old new : str) (skip : nat) (s : str) : str :=
  match s with
  | [] => []
  | c :: s' =>
    match skip with
    | S k => replace_from old new k s'
    | O =>
      if starts_with old s
      then new ++ replace_from old new (List.length old - 1) s'
      else c :: replace_from old new 0 s'
    end
  end.

(** [s.replace(old, new)].  For an empty [old] Python inserts [new] before
    every character and at the end. *)
Definition replace (old new s : str) : str :=
  match old with
  | [] => new ++ flat_map (fun c => c :: new) s
  | _ :: _ => replace_from old new 0 s
  end.

(** Code point of a character. *)
Definition ord (c : ascii) : nat := nat_of_ascii c.

(** [sorted(s, reverse=True)]: characters compare by code point; the sort is
    stable, which is invisible on characters. *)
Fixpoint insert_desc (c : ascii) (l : list ascii) : list ascii :=
  match l with
  | [] => [c]
  | d :: l' => if (ord d <? ord c)%nat then c :: l else d :: insert_desc c l'
  end.

Fixpoint sorted_reverse (s : list ascii) : list ascii :=
  match s with
  | [] => []
  | c :: s' => insert_desc c (sorted_reverse s')
  end.

(** [c in l] for a list of one-character strings [l]. *)
Fixpoint char_in (c : ascii) (l : list ascii) : bool :=
  match l with
  | [] => false
  | d :: l' => Ascii.eqb c d || char_in c l'
  end.

(** [s == t] *)
Fixpoint str_eqb (s t : str) : bool :=
  match s, t with
  | [], [] => true
  | c :: s', d :: t' => Ascii.eqb c d && str_eqb s' t'
  | _, _ => false
  end.

End PyStr.

(** ** The program *)

Definition ROMAN_NUMERALS : list ascii := ["I"; "V"; "X"].

(** The [for char in simple_sum] loop: the first character outside
    [ROMAN_NUMERALS] raises. *)
Fixpoint check_chars (s : str) : result unit :=
  match s with
  | [] => Ok tt
  | char :: s' =>
    if negb (PyStr.char_in char ROMAN_NUMERALS)
    then Raise ValueError
    else check_chars s'
  end.

(** The right-hand side of [simple_augend] and of [simple_addend]. *)
Definition expand (s : str) : str :=
  PyStr.replace #"IV" #"IIII" (PyStr.replace #"IX" #"IIIIIIIII" s).

(** The six chained replacements that compute [canonicalised_sum]. *)
Definition collapse (ordered_sum : str) : str :=
  PyStr.replace #"VIV" #"IX"
    (PyStr.replace #"IIII" #"IV"
      (PyStr.replace #"VV" #"X"
        (PyStr.replace #"IIIII" #"V"
          (PyStr.replace #"IIIIIIIII" #"IX"
            (PyStr.replace #"IIIIIIIIII" #"X" ordered_sum))))).

(** The two [if] statements after it. *)
Definition fix_up (canonicalised_sum : str) : str :=
  let canonicalised_sum :=
    if PyStr.str_eqb canonicalised_sum #"VX" then #"XV" else canonicalised_sum in
  let canonicalised_sum :=
    if PyStr.str_eqb canonicalised_sum #"VIX" then #"XIV" else canonicalised_sum in
  canonicalised_sum.

Definition canonicalise (ordered_sum : str) : str :=
  fix_up (collapse ordered_sum).

Definition add (augend addend : pyobj) : result str :=
  if negb (isinstance_str augend) || negb (isinstance_str addend)
  then Raise ValueError
  else
    match augend, addend with
    | PStr augend, PStr addend =>
      let simple_augend := expand augend in
      let simple_addend := expand addend in
      let simple_sum := simple_augend ++ simple_addend in
      _ <- check_chars simple_sum ;;
      let ordered_sum := PyStr.sorted_reverse simple_sum in
      Ok (canonicalise ordered_sum)
    | _, _ => Raise ValueError
    end.

(** ** Reference notions used to state the properties *)

(** Value of one symbol. *)
Definition symbol_value (c : ascii) : nat :=
  if Ascii.eqb c "I" then 1
  else if Ascii.eqb c "V" then 5
  else if Ascii.eqb c "X" then 10
  else 0.

(** Value of a string read additively, as a multiset of symbols. *)
Fixpoint additive_value (s : str) : nat :=
  match s with
  | [] => 0
  | c :: s' => symbol_value c + additive_value s'
  end.

(** Roman-to-integer mapping for I, V, X: symbols add up, read from the left,
    except that the pairs IV and IX count 4 and 9. *)
Fixpoint value (s : str) : nat :=
  match s with
  | [] => 0
  | c :: s' =>
    match s' with
    | d :: s'' =>
      if Ascii.eqb c "I" && Ascii.eqb d "V" then 4 + value s''
      else if Ascii.eqb c "I" && Ascii.eqb d "X" then 9 + value s''
      else symbol_value c + value s'
    | [] => symbol_value c
    end
  end.

(** Membership in [ROMAN_NUMERALS]. *)
Definition roman (c : ascii) : Prop := In c ROMAN_NUMERALS.

(** Descending by code point, the order of [sorted(..., reverse=True)]. *)
Definition ord_ge (c d : ascii) : Prop := PyStr.ord d <= PyStr.ord c.

(** [old] occurs in [s] at offset [i]. *)
Definition occurs_at (old s : str) (i : nat) : Prop :=
  exists p r, s = p ++ old ++ r /\ List.length p = i.

Definition occurs (old s : str) : Prop :=
  exists i, occurs_at old s i.

(** Decidable form of [occurs]. *)
Fixpoint occursb (old s : str) : bool :=
  PyStr.starts_with old s ||
  match s with
  | [] => false
  | _ :: s' => occursb old s'
  end.

(** Replacement of all occurrences of [old] by [new], as a relation: the
    leftmost occurrence is replaced, the text before it is kept, the inserted
    text is not looked at again, and the rest of the string, after the
    occurrence, is treated the same way. *)
Inductive Replaced (old new : str) : str -> str -> Prop :=
| Replaced_none s :
    ~ occurs old s ->
    Replaced old new s s
| Replaced_leftmost p r r' :
    (forall i, i < List.length p -> ~ occurs_at old (p ++ old ++ r) i) ->
    Replaced old new r r' ->
    Replaced old new (p ++ old ++ r) (p ++ new ++ r').

(** A list of substitution rules applied one after the other, each on the
    whole result of the one before. *)
Inductive Rewritten : list (str * str) -> str -> str -> Prop :=
| Rewritten_nil s : Rewritten [] s s
| Rewritten_cons old new rules s t u :
    Replaced old new s t ->
    Rewritten rules t u ->
    Rewritten ((old, new) :: rules) s u.

(** The substitution rules of the collapse step, in the order of the
    specification. *)
Definition substitution_rules : list (str * str) :=
  [ (repeat "I" 10, ["X"]);
    (repeat "I" 9, ["I"; "X"]);
    (repeat "I" 5, ["V"]);
    (["V"; "V"], ["X"]);
    (repeat "I" 4, ["I"; "V"]);
    (["V"; "I"; "V"], ["I"; "X"]) ].

(** The two corrections made on a whole result. *)
Definition post_correct (s : str) : str :=
  if list_eq_dec ascii_dec s ["V"; "X"] then ["X"; "V"]
  else if list_eq_dec ascii_dec s ["V"; "I"; "X"] then ["X"; "I"; "V"]
  else s.

(** Expansion as one scan of the input from the left: an "IX" becomes nine
    'I', an "IV" four 'I', any other character is kept; what is written is
    never read again. *)
Fixpoint expand_scan (s : str) : str :=
  match s with
  | [] => []
  | c :: s' =>
    match s' with
    | d :: s'' =>
      if Ascii.eqb c "I" && Ascii.eqb d "X" then repeat "I" 9 ++ expand_scan s''
      else if Ascii.eqb c "I" && Ascii.eqb d "V" then repeat "I" 4 ++ expand_scan s''
      else c :: expand_scan s'
    | [] => [c]
    end
  end.

(** The same scan, except that an "IX" directly followed by 'V' becomes
    twelve 'I': the 'V' is taken together with the last 'I' written for the
    "IX". *)
Fixpoint expand_scan_junction (s : str) : str :=
  match s with
  | [] => []
  | c :: s' =>
    match s' with
    | d :: s'' =>
      if Ascii.eqb c "I" && Ascii.eqb d "X" then
        match s'' with
        | e :: rest =>
          if Ascii.eqb e "V" then repeat "I" 12 ++ expand_scan_junction rest
          else repeat "I" 9 ++ expand_scan_junction s''
        | [] => repeat "I" 9
        end
      else if Ascii.eqb c "I" && Ascii.eqb d "V" then
        repeat "I" 4 ++ expand_scan_junction s''
      else c :: expand_scan_junction s'
    | [] => [c]
    end
  end.

(** The canonical numeral of a number up to 39. *)
Definition units (n : nat) : str :=
  match n with
  | 0 => []
  | 1 => #"I" | 2 => #"II" | 3 => #"III"
  | 4 => #"IV"
  | 5 => #"V" | 6 => #"VI" | 7 => #"VII" | 8 => #"VIII"
  | _ => #"IX"
  end.

Definition numeral (n : nat) : str :=
  repeat "X" (n / 10) ++ units (n mod 10).

(** Number of occurrences of a character in a string. *)
Definition count (c : ascii) (s : str) : nat := count_occ ascii_dec s c.

(** A sorted string over I, V, X: [a] times X, [b] times V, [c] times I. *)
Definition blocks (a b c : nat) : str :=
  repeat "X" a ++ repeat "V" b ++ repeat "I" c.

(** What the six rules make of one 'V' followed by fewer than ten 'I'. *)
Definition V_units (r : nat) : str :=
  match r with
  | 0 => #"V" | 1 => #"VI" | 2 => #"VII" | 3 => #"VIII"
  | 4 => #"IX"
  | 5 => #"X" | 6 => #"XI" | 7 => #"XII" | 8 => #"XIII"
  | _ => #"VIX"
  end.

(** What the six rules make of [blocks a b c]: pairs of V and tens of I each
    give an X; an odd V stays in front of the X that come from the I. *)
Definition collapsed (a b c : nat) : str :=
  repeat "X" (a + b / 2) ++
  match b mod 2 with
  | 0 => repeat "X" (c / 10) ++ units (c mod 10)
  | _ =>
    match c / 10 with
    | 0 => V_units (c mod 10)
    | S q => "V" :: "X" :: repeat "X" q ++ units (c mod 10)
    end
  end.

(** Numbers of V and of I in the expansion of the units numeral of [r]. *)
Definition fives (r : nat) : nat :=
  if (5 <=? r)%nat && (r <=? 8)%nat then 1 else 0.

Definition ones (r : nat) : nat :=
  if (9 <=? r)%nat then 9 else r - 5 * fives r.

(** The numbers of X, V and I for which the result is the numeral of the
    sum. *)
Definition collapses_to_numeral (nX nV nI : nat) : Prop :=
  nV mod 2 = 0 \/ nI < 9 \/ (nX = 0 /\ nV = 1 /\ (nI = 9 \/ nI = 10)).

(** Two numbers whose numerals [add] does not add up to a numeral: one ends
    in 9, the other in 5 to 8, and the sum is neither 14 nor 15. *)
Definition clash (m n : nat) : Prop :=
  (m mod 10 = 9 /\ 5 <= n mod 10 <= 8 \/ n mod 10 = 9 /\ 5 <= m mod 10 <= 8) /\
  m + n <> 14 /\ m + n <> 15.

(** ** The string operations *)

Section Replace.

Import PyStr.

Lemma starts_with_app (old s : str) : starts_with old (old ++ s) = true.
Proof.
  induction old as [|o old IH]; simpl; [reflexivity|].
  now rewrite Ascii.eqb_refl, IH.
Qed.

Lemma starts_with_split (old s : str) :
  starts_with old s = true -> exists r, s = old ++ r.
Proof.
  revert s; induction old as [|o old IH]; intros s H; simpl in H.
  - now exists s.
  - destruct s as [|c s]; [discriminate|].
    apply andb_true_iff in H as [Hc Hs].
    apply Ascii.eqb_eq in Hc; subst c.
    destruct (IH _ Hs) as [r ->]. now exists r.
Qed.

Lemma starts_with_occurs_at (old s : str) :
  starts_with old s = true <-> occurs_at old s 0.
Proof.
  split.
  - intros H. destruct (starts_with_split _ _ H) as [r ->].
    now exists [], r.
  - intros (p & r & -> & Hp).
    destruct p; [|discriminate]. simpl. apply starts_with_app.
Qed.

Lemma occurs_at_cons (old s : str) (c : ascii) (i : nat) :
  occurs_at old (c :: s) (S i) <-> occurs_at old s i.
Proof.
  split.
  - intros (p & r & E & Hp).
    destruct p as [|c' p]; [discriminate|].
    injection E as -> ->. injection Hp as Hp. now exists p, r.
  - intros (p & r & -> & Hp). exists (c :: p), r. simpl. now rewrite Hp.
Qed.

Lemma occursb_occurs (old s : str) : occursb old s = true <-> occurs old s.
Proof.
  induction s as [|c s IH].
  - simpl. rewrite orb_false_r, starts_with_occurs_at. split.
    + intros H. now exists 0.
    + intros [i (p & r & E & Hp)].
      destruct p; [|discriminate]. now exists [], r.
  - cbn [occursb]. rewrite orb_true_iff, IH, starts_with_occurs_at. split.
    + intros [H|[i H]]; [now exists 0|].
      exists (S i). now apply occurs_at_cons.
    + intros [[|i] H]; [now left|right].
      exists i. now apply occurs_at_cons in H.
Qed.

Lemma replace_from_skip (old new p s : str) :
  replace_from old new (List.length p) (p ++ s) = replace_from old new 0 s.
Proof. induction p as [|c p IH]; simpl; [now destruct s|exact IH]. Qed.

Variables old new : str.
Hypothesis old_nonempty : old <> [].

Lemma replace_eq (s : str) : replace old new s = replace_from old new 0 s.
Proof. unfold replace. destruct old; [contradiction|reflexivity]. Qed.

Lemma replace_nil : replace old new [] = [].
Proof. now rewrite replace_eq. Qed.

Lemma replace_match (s : str) :
  replace old new (old ++ s) = new ++ replace old new s.
Proof.
  rewrite !replace_eq. destruct old as [|o old']; [contradiction|].
  change ((o :: old') ++ s) with (o :: (old' ++ s)).
  cbn [replace_from].
  change (o :: old' ++ s) with ((o :: old') ++ s).
  rewrite starts_with_app. f_equal.
  replace (List.length (o :: old') - 1) with (List.length old') by (simpl; lia).
  apply replace_from_skip.
Qed.

Lemma replace_keep (c : ascii) (s : str) :
  starts_with old (c :: s) = false ->
  replace old new (c :: s) = c :: replace old new s.
Proof.
  intros H. rewrite !replace_eq. cbn [replace_from]. now rewrite H.
Qed.

Lemma replace_absent (s : str) : ~ occurs old s -> replace old new s = s.
Proof.
  induction s as [|c s IH]; intros H; [apply replace_nil|].
  rewrite replace_keep.
  - f_equal. apply IH. intros [i Hi]. apply H.
    exists (S i). now apply occurs_at_cons.
  - apply not_true_is_false. intros E. apply H.
    exists 0. now apply starts_with_occurs_at.
Qed.

Lemma replace_leftmost (p r : str) :
  (forall i, i < List.length p -> ~ occurs_at old (p ++ old ++ r) i) ->
  replace old new (p ++ old ++ r) = p ++ new ++ replace old new r.
Proof.
  induction p as [|c p IH]; intros H.
  - apply replace_match.
  - change ((c :: p) ++ old ++ r) with (c :: (p ++ old ++ r)).
    rewrite replace_keep.
    + simpl. f_equal. apply IH. intros i Hi Ho.
      apply (H (S i)); [simpl; lia|]. now apply occurs_at_cons.
    + apply not_true_is_false. intros E.
      apply (H 0); [simpl; lia|]. now apply starts_with_occurs_at.
Qed.

Lemma Replaced_replace (s t : str) : Replaced old new s t -> t = replace old new s.
Proof.
  induction 1 as [s H|p r r' H _ IH].
  - symmetry. now apply replace_absent.
  - rewrite replace_leftmost by exact H. now rewrite IH.
Qed.

Lemma Replaced_cons (c : ascii) (s t : str) :
  starts_with old (c :: s) = false ->
  Replaced old new s t -> Replaced old new (c :: s) (c :: t).
Proof.
  intros Hc H. assert (H0 : ~ occurs_at old (c :: s) 0).
  { rewrite <- starts_with_occurs_at. now rewrite Hc. }
  destruct H as [s H|p r r' H Hr].
  - apply Replaced_none. intros [[|i] Hi]; [easy|].
    apply H. exists i. now apply occurs_at_cons in Hi.
  - apply (Replaced_leftmost old new (c :: p) r r'); [|exact Hr].
    intros [|i] Hi; [exact H0|].
    simpl in Hi. intros Ho. apply occurs_at_cons in Ho.
    apply (H i); [lia|exact Ho].
Qed.

Lemma replace_Replaced (s : str) : Replaced old new s (replace old new s).
Proof.
  remember (List.length s) as n eqn:Hn.
  revert s Hn. induction n as [n IH] using lt_wf_ind. intros s Hn.
  destruct s as [|c s]; [rewrite replace_nil|].
  - apply Replaced_none. intros [i (p & r & E & _)].
    destruct p; [|discriminate]. destruct old; [contradiction|discriminate].
  - destruct (starts_with old (c :: s)) eqn:E.
    + destruct (starts_with_split _ _ E) as [r Hr]. rewrite Hr.
      rewrite replace_match.
      apply (Replaced_leftmost old new [] r (replace old new r)).
      * simpl. intros i Hi. lia.
      * apply (IH (List.length r)); [|reflexivity].
        subst n. rewrite Hr, length_app.
        destruct old; [contradiction|simpl; lia].
    + rewrite replace_keep by exact E.
      apply Replaced_cons; [exact E|].
      apply (IH (List.length s)); [subst n; simpl; lia|reflexivity].
Qed.

(** [str.replace] is exactly leftmost, non-overlapping replacement of all
    occurrences. *)
Lemma replace_spec (s t : str) :
  Replaced old new s t <-> t = replace old new s.
Proof.
  split; [apply Replaced_replace|]. intros ->. apply replace_Replaced.
Qed.

End Replace.

Section ReplaceForall.

Import PyStr.

Variable P : ascii -> Prop.

Lemma replace_from_Forall (old new : str) (k : nat) (s : str) :
  Forall P new -> Forall P s -> Forall P (replace_from old new k s).
Proof.
  intros Hnew Hs. revert k.
  induction Hs as [|c s Hc Hs IH]; intros k; simpl; [constructor|].
  destruct k as [|k]; [|apply IH].
  destruct (starts_with old (c :: s)).
  - apply Forall_app. split; [exact Hnew|apply IH].
  - constructor; [exact Hc|apply IH].
Qed.

Lemma replace_Forall (old new s : str) :
  Forall P new -> Forall P s -> Forall P (replace old new s).
Proof.
  intros Hnew Hs. destruct old as [|o old']; simpl.
  - apply Forall_app. split; [exact Hnew|].
    apply Forall_flat_map.
    induction Hs as [|c s Hc Hs IH]; constructor; auto.
  - now apply replace_from_Forall.
Qed.

End ReplaceForall.

Section Sorting.

Import PyStr.

Lemma ord_inj (c d : ascii) : ord c = ord d -> c = d.
Proof.
  unfold ord. intros H.
  rewrite <- (ascii_nat_embedding c), <- (ascii_nat_embedding d).
  now rewrite H.
Qed.

Lemma insert_desc_perm (c : ascii) (l : list ascii) :
  Permutation (c :: l) (insert_desc c l).
Proof.
  induction l as [|d l IH]; simpl; [reflexivity|].
  destruct (ord d <? ord c)%nat; [reflexivity|].
  rewrite perm_swap. now constructor.
Qed.

Lemma sorted_reverse_perm (s : list ascii) : Permutation s (sorted_reverse s).
Proof.
  induction s as [|c s IH]; simpl; [constructor|].
  rewrite <- insert_desc_perm. now constructor.
Qed.

Lemma insert_desc_sorted (c : ascii) (l : list ascii) :
  StronglySorted ord_ge l -> StronglySorted ord_ge (insert_desc c l).
Proof.
  induction 1 as [|d l Hl IH Hd]; simpl.
  - repeat constructor.
  - destruct (ord d <? ord c)%nat eqn:E.
    + apply Nat.ltb_lt in E. constructor; [now constructor|].
      constructor; [unfold ord_ge; lia|].
      eapply Forall_impl; [|exact Hd]. unfold ord_ge. intros; lia.
    + apply Nat.ltb_ge in E. constructor; [exact IH|].
      rewrite <- insert_desc_perm. now constructor.
Qed.

Lemma sorted_reverse_sorted (s : list ascii) :
  StronglySorted ord_ge (sorted_reverse s).
Proof.
  induction s as [|c s IH]; simpl; [constructor|].
  now apply insert_desc_sorted.
Qed.

Lemma insert_desc_comm (c d : ascii) (l : list ascii) :
  insert_desc c (insert_desc d l) = insert_desc d (insert_desc c l).
Proof.
  induction l as [|e l IH]; simpl.
  - destruct (ord d <? ord c)%nat eqn:E1, (ord c <? ord d)%nat eqn:E2;
      try reflexivity.
    + apply Nat.ltb_lt in E1, E2. lia.
    + apply Nat.ltb_ge in E1, E2.
      now rewrite (ord_inj c d) by lia.
  - destruct (ord e <? ord d)%nat eqn:E1, (ord e <? ord c)%nat eqn:E2; simpl;
      rewrite ?E1, ?E2.
    + destruct (ord d <? ord c)%nat eqn:E3, (ord c <? ord d)%nat eqn:E4;
        try reflexivity.
      * apply Nat.ltb_lt in E3, E4. lia.
      * apply Nat.ltb_ge in E3, E4.
        now rewrite (ord_inj c d) by lia.
    + replace (ord d <? ord c)%nat with false; [reflexivity|].
      symmetry. apply Nat.ltb_ge. apply Nat.ltb_lt in E1.
      apply Nat.ltb_ge in E2. lia.
    + replace (ord c <? ord d)%nat with false; [reflexivity|].
      symmetry. apply Nat.ltb_ge. apply Nat.ltb_lt in E2.
      apply Nat.ltb_ge in E1. lia.
    + now rewrite IH.
Qed.

(** The sorted string depends on the multiset of characters only. *)
Lemma sorted_reverse_permutation (s t : list ascii) :
  Permutation s t -> sorted_reverse s = sorted_reverse t.
Proof.
  induction 1 as [|c s t _ IH|c d s|s t u _ IH1 _ IH2]; simpl.
  - reflexivity.
  - now rewrite IH.
  - apply insert_desc_comm.
  - now rewrite IH1.
Qed.

End Sorting.

(** ** Validation *)

Lemma char_in_In (c : ascii) (l : list ascii) :
  PyStr.char_in c l = true <-> In c l.
Proof.
  induction l as [|d l IH]; simpl; [easy|].
  rewrite orb_true_iff, IH, Ascii.eqb_eq. intuition congruence.
Qed.

Lemma check_chars_forallb (s : str) :
  check_chars s =
  if forallb (fun c => PyStr.char_in c ROMAN_NUMERALS) s
  then Ok tt else Raise ValueError.
Proof.
  induction s as [|c s IH]; [reflexivity|].
  cbn [check_chars forallb].
  destruct (PyStr.char_in c ROMAN_NUMERALS); simpl; [exact IH|reflexivity].
Qed.

Lemma check_chars_ok (s : str) : check_chars s = Ok tt <-> Forall roman s.
Proof.
  rewrite check_chars_forallb, Forall_forall.
  destruct (forallb _ s) eqn:E.
  - rewrite forallb_forall in E. split; [|reflexivity].
    intros _ c Hc. apply char_in_In. now apply E.
  - split; [discriminate|]. intros H.
    assert (E' : forallb (fun c => PyStr.char_in c ROMAN_NUMERALS) s = true).
    { apply forallb_forall. intros c Hc. apply char_in_In. now apply H. }
    congruence.
Qed.

Lemma check_chars_raise (s : str) :
  check_chars s = Raise ValueError <-> Exists (fun c => ~ roman c) s.
Proof.
  induction s as [|c s IH]; cbn [check_chars].
  - split; [discriminate|]. intros H. inversion H.
  - rewrite Exists_cons. destruct (PyStr.char_in c ROMAN_NUMERALS) eqn:E; simpl.
    + rewrite IH. apply char_in_In in E. unfold roman. tauto.
    + split; [|reflexivity]. intros _. left. unfold roman.
      rewrite <- char_in_In. congruence.
Qed.

Lemma check_chars_cases (s : str) :
  check_chars s = Ok tt \/ check_chars s = Raise ValueError.
Proof.
  rewrite check_chars_forallb. destruct (forallb _ s); auto.
Qed.

Lemma roman_cases (c : ascii) : roman c <-> c = "I" \/ c = "V" \/ c = "X".
Proof. unfold roman, ROMAN_NUMERALS. simpl. intuition congruence. Qed.

(** The shape of [add] on two strings. *)
Lemma add_str (a b : str) :
  add (PStr a) (PStr b) =
  (_ <- check_chars (expand a ++ expand b) ;;
   Ok (canonicalise (PyStr.sorted_reverse (expand a ++ expand b)))).
Proof. reflexivity. Qed.

Lemma add_ok_inv (x y : pyobj) (s : str) :
  add x y = Ok s ->
  exists a b, x = PStr a /\ y = PStr b /\
    Forall roman (expand a ++ expand b) /\
    s = canonicalise (PyStr.sorted_reverse (expand a ++ expand b)).
Proof.
  destruct x as [a| |], y as [b| |]; try discriminate.
  rewrite add_str. intros H. exists a, b.
  destruct (check_chars_cases (expand a ++ expand b)) as [E|E];
    rewrite E in H; simpl in H; [|discriminate].
  injection H as <-. apply check_chars_ok in E. auto.
Qed.

Lemma add_ok (a b : str) :
  Forall roman (expand a ++ expand b) ->
  add (PStr a) (PStr b) =
  Ok (canonicalise (PyStr.sorted_reverse (expand a ++ expand b))).
Proof.
  intros H. rewrite add_str. apply check_chars_ok in H. now rewrite H.
Qed.

Lemma str_eqb_eq (s t : str) : PyStr.str_eqb s t = true <-> s = t.
Proof.
  revert t; induction s as [|c s IH]; intros [|d t]; simpl; try easy.
  rewrite andb_true_iff, Ascii.eqb_eq, IH. split.
  - now intros [-> ->].
  - intros E. now injection E.
Qed.

Lemma fix_up_post_correct (s : str) : fix_up s = post_correct s.
Proof.
  unfold fix_up, post_correct.
  destruct (list_eq_dec ascii_dec s ["V"; "X"]) as [->|N1]; [reflexivity|].
  destruct (PyStr.str_eqb s #"VX") eqn:E1.
  { apply str_eqb_eq in E1. contradiction. }
  destruct (list_eq_dec ascii_dec s ["V"; "I"; "X"]) as [->|N2]; [reflexivity|].
  destruct (PyStr.str_eqb s #"VIX") eqn:E2; [|reflexivity].
  apply str_eqb_eq in E2. contradiction.
Qed.

Lemma fix_up_Forall (P : ascii -> Prop) (s : str) :
  P "X" -> P "V" -> P "I" -> Forall P s -> Forall P (fix_up s).
Proof.
  intros HX HV HI Hs. unfold fix_up.
  destruct (PyStr.str_eqb s _); simpl.
  - repeat constructor; assumption.
  - destruct (PyStr.str_eqb s _); [repeat constructor|]; assumption.
Qed.

(** ** Error behaviour *)

(** C3: [add] raises (the only exception it has, [ValueError], in place of a
    result) exactly when an argument is not a string or some character of the
    two expanded inputs put together is not one of I, V, X; in every other
    case it returns a string. *)
Theorem add_raises_iff (x y : pyobj) :
  (add x y = Raise ValueError <->
   isinstance_str x = false \/ isinstance_str y = false \/
   exists a b, x = PStr a /\ y = PStr b /\
     Exists (fun c => ~ In c ROMAN_NUMERALS) (expand a ++ expand b)) /\
  (add x y = Raise ValueError \/ exists s, add x y = Ok s).
Proof.
  destruct x as [a| |], y as [b| |];
    try (split; [split; [intros _; auto|reflexivity]|left; reflexivity]).
  rewrite add_str. split.
  - split.
    + intros H. right; right. exists a, b. repeat split.
      apply check_chars_raise.
      destruct (check_chars_cases (expand a ++ expand b)) as [E|E];
        [rewrite E in H; discriminate|exact E].
    + intros [H|[H|(a' & b' & Ea & Eb & H)]]; try discriminate.
      injection Ea as <-. injection Eb as <-.
      apply check_chars_raise in H. now rewrite H.
  - destruct (check_chars_cases (expand a ++ expand b)) as [E|E]; rewrite E.
    + right. eexists. reflexivity.
    + now left.
Qed.

(** C9: two empty strings are accepted and give the empty string. *)
Theorem add_empty : add (PStr #"") (PStr #"") = Ok #"".
Proof. reflexivity. Qed.

(** C8: the seven scenarios of the specification. *)
Theorem add_scenarios :
  add (PStr #"I") (PStr #"I") = Ok #"II" /\
  add (PStr #"III") (PStr #"I") = Ok #"IV" /\
  add (PStr #"IV") (PStr #"I") = Ok #"V" /\
  add (PStr #"V") (PStr #"IV") = Ok #"IX" /\
  add (PStr #"IX") (PStr #"I") = Ok #"X" /\
  add (PStr #"X") (PStr #"IV") = Ok #"XIV" /\
  add (PStr #"IX") (PStr #"IX") = Ok #"XVIII".
Proof. repeat split; vm_compute; reflexivity. Qed.

(** ** Sorting *)

Lemma roman_ord_value (c d : ascii) :
  roman c -> roman d -> PyStr.ord d <= PyStr.ord c ->
  symbol_value d <= symbol_value c.
Proof.
  rewrite !roman_cases.
  intros [-> | [-> | ->]] [-> | [-> | ->]]; vm_compute; intros H; lia.
Qed.

Lemma StronglySorted_impl_Forall {A : Type} (P : A -> Prop) (R R' : A -> A -> Prop)
    (l : list A) :
  (forall x y, P x -> P y -> R x y -> R' x y) ->
  Forall P l -> StronglySorted R l -> StronglySorted R' l.
Proof.
  intros HR HP. induction 1 as [|x l Hl IH Hx]; constructor.
  - apply IH. now inversion HP.
  - inversion HP as [|? ? Px Pl]; subst.
    rewrite Forall_forall in *. intros y Hy. apply HR; auto.
Qed.

(** A merged string that passed validation is sorted into non-increasing
    symbol value (X before V before I), and sorting keeps every character
    with its number of occurrences. *)
Lemma ordered_sum_sorted (simple_sum : str) :
  check_chars simple_sum = Ok tt ->
  StronglySorted (fun c d => symbol_value d <= symbol_value c)
    (PyStr.sorted_reverse simple_sum) /\
  Permutation simple_sum (PyStr.sorted_reverse simple_sum).
Proof.
  intros H. apply check_chars_ok in H. split; [|apply sorted_reverse_perm].
  apply (StronglySorted_impl_Forall roman ord_ge).
  - intros c d Hc Hd. now apply roman_ord_value.
  - eapply Permutation_Forall; [apply sorted_reverse_perm|exact H].
  - apply sorted_reverse_sorted.
Qed.

(** C7: whenever [add] returns, its result is the canonicalisation of a
    string that has the characters of the two expanded inputs put together,
    each as many times, in non-increasing symbol value (X before V before
    I). *)
Theorem add_ordered_sum_sorted (a b s : str) :
  add (PStr a) (PStr b) = Ok s ->
  exists ordered_sum,
    StronglySorted (fun c d => symbol_value d <= symbol_value c) ordered_sum /\
    Permutation (expand a ++ expand b) ordered_sum /\
    s = canonicalise ordered_sum.
Proof.
  intros H. apply add_ok_inv in H as (a' & b' & Ea & Eb & Hv & ->).
  injection Ea as <-. injection Eb as <-.
  exists (PyStr.sorted_reverse (expand a ++ expand b)).
  apply check_chars_ok in Hv.
  destruct (ordered_sum_sorted _ Hv) as [Hs Hp]. auto.
Qed.

Lemma add_ordered_sum_sorted_witness :
  add (PStr #"IX") (PStr #"VII") = Ok #"VXI" /\
  exists ordered_sum,
    StronglySorted (fun c d => symbol_value d <= symbol_value c) ordered_sum /\
    Permutation (expand #"IX" ++ expand #"VII") ordered_sum /\
    #"VXI" = canonicalise ordered_sum.
Proof.
  split; [reflexivity|].
  apply (add_ordered_sum_sorted #"IX" #"VII" #"VXI"). reflexivity.
Defined.

(** ** Commutativity *)

(** C4: [add] gives the same result, or the same error, whichever way round
    its arguments are given; in particular on valid inputs. *)
Theorem add_commutative (x y : pyobj) : add x y = add y x.
Proof.
  destruct x as [a| |], y as [b| |]; try reflexivity.
  rewrite !add_str, !check_chars_forallb, !forallb_app.
  rewrite (andb_comm (forallb _ (expand b))).
  rewrite (sorted_reverse_permutation (expand b ++ expand a) (expand a ++ expand b))
    by apply Permutation_app_comm.
  reflexivity.
Qed.

(** ** Alphabet of the result *)

Lemma canonicalise_Forall (P : ascii -> Prop) (s : str) :
  P "X" -> P "V" -> P "I" -> Forall P s -> Forall P (canonicalise s).
Proof.
  intros HX HV HI Hs. unfold canonicalise, collapse.
  apply fix_up_Forall; try assumption.
  repeat (apply replace_Forall; [repeat constructor; assumption|]).
  exact Hs.
Qed.

(** C10: whenever [add] returns a string, each of its characters is one of
    I, V, X. *)
Theorem add_alphabet (a b s : str) :
  add (PStr a) (PStr b) = Ok s ->
  Forall (fun c => c = "I" \/ c = "V" \/ c = "X") s.
Proof.
  intros H. apply add_ok_inv in H as (a' & b' & Ea & Eb & Hv & ->).
  injection Ea as <-. injection Eb as <-.
  apply canonicalise_Forall; auto.
  eapply Permutation_Forall; [apply sorted_reverse_perm|].
  eapply Forall_impl; [|exact Hv]. intros c. apply roman_cases.
Qed.

Lemma add_alphabet_witness :
  add (PStr #"XIX") (PStr #"VI") = Ok #"XVX" /\
  Forall (fun c => c = "I" \/ c = "V" \/ c = "X") #"XVX".
Proof.
  split; [reflexivity|].
  apply (add_alphabet #"XIX" #"VI" #"XVX"). reflexivity.
Defined.

(** ** The collapse step *)

Lemma Rewritten_cons_inv (old new : str) (rules : list (str * str)) (s u : str) :
  old <> [] ->
  Rewritten ((old, new) :: rules) s u ->
  Rewritten rules (PyStr.replace old new s) u.
Proof.
  intros Hold H. inversion H as [|old' new' rules' s' t u' R H']; subst.
  apply Replaced_replace in R; [|exact Hold]. now subst.
Qed.

Lemma Rewritten_nil_inv (s u : str) : Rewritten [] s u -> u = s.
Proof. intros H. now inversion H. Qed.

(** The collapse applies the six substitution rules in the order of the
    specification, each on the whole string, and then the two corrections. *)
Lemma canonicalise_rules (ordered_sum t : str) :
  canonicalise ordered_sum = t <->
  exists u, Rewritten substitution_rules ordered_sum u /\ t = post_correct u.
Proof.
  unfold canonicalise. rewrite fix_up_post_correct. split.
  - intros <-. exists (collapse ordered_sum). split; [|reflexivity].
    unfold collapse, substitution_rules.
    repeat (eapply Rewritten_cons; [apply replace_Replaced; discriminate|]).
    apply Rewritten_nil.
  - intros (u & H & ->). f_equal. unfold substitution_rules in H.
    do 6 (apply Rewritten_cons_inv in H; [|discriminate]).
    apply Rewritten_nil_inv in H. now subst.
Qed.

(** C5: [add] returns [t] exactly when the two expanded inputs pass the
    character check and [t] is obtained from their sorted concatenation by
    the six substitution rules in the order of the specification (ten I to X,
    nine I to IX, five I to V, VV to X, four I to IV, VIV to IX), each on the
    whole string as a leftmost-first, non-overlapping replacement of all
    occurrences, and then by turning a result that is exactly VX into XV and
    one that is exactly VIX into XIV. *)
Theorem add_canonicalise_rules (a b t : str) :
  add (PStr a) (PStr b) = Ok t <->
  Forall (fun c => In c ROMAN_NUMERALS) (expand a ++ expand b) /\
  exists u,
    Rewritten substitution_rules
      (PyStr.sorted_reverse (expand a ++ expand b)) u /\
    t = post_correct u.
Proof.
  split.
  - intros H. apply add_ok_inv in H as (a' & b' & Ea & Eb & Hv & ->).
    injection Ea as <-. injection Eb as <-.
    split; [exact Hv|]. now apply canonicalise_rules.
  - intros [Hv H]. rewrite (add_ok a b Hv). f_equal.
    now apply canonicalise_rules.
Qed.

(** ** The expansion step *)

Section Expand.

Import PyStr.

Local Notation "'r1'" := (replace #"IX" #"IIIIIIIII").
Local Notation "'r2'" := (replace #"IV" #"IIII").

Lemma eqb_neq_sym (c x : ascii) : c <> x -> Ascii.eqb x c = false.
Proof. intros H. apply Ascii.eqb_neq. congruence. Qed.

Ltac case_char c x :=
  destruct (Ascii.eqb_spec c x) as [->|?];
  [|rewrite ?(proj2 (Ascii.eqb_neq c x)), ?(eqb_neq_sym c x) by assumption].

Lemma r1_nil : r1 [] = [].
Proof. reflexivity. Qed.

Lemma r1_IX (s : str) : r1 ("I" :: "X" :: s) = repeat "I" 9 ++ r1 s.
Proof. apply (replace_match #"IX" #"IIIIIIIII"). discriminate. Qed.

Lemma r1_keep (c : ascii) (s : str) :
  starts_with #"IX" (c :: s) = false -> r1 (c :: s) = c :: r1 s.
Proof. apply replace_keep. discriminate. Qed.

Lemma r2_IV (s : str) : r2 ("I" :: "V" :: s) = repeat "I" 4 ++ r2 s.
Proof. apply (replace_match #"IV" #"IIII"). discriminate. Qed.

Lemma r2_keep (c : ascii) (s : str) :
  starts_with #"IV" (c :: s) = false -> r2 (c :: s) = c :: r2 s.
Proof. apply replace_keep. discriminate. Qed.

(** A goal [starts_with old (c :: s) = false], from what is known of the
    first characters. *)
Ltac no_start :=
  let E := fresh "E" in
  let r := fresh "r" in
  apply not_true_is_false; intros E;
  apply starts_with_split in E as [r E]; simpl in E;
  try discriminate E; injection E; intros; subst; try congruence.

(** The first replacement leaves a leading 'V' where it is and creates
    none. *)
Lemma r1_head_V (s r : str) : r1 s = "V" :: r -> exists r', s = "V" :: r'.
Proof.
  destruct s as [|c s]; [discriminate|].
  destruct (starts_with #"IX" (c :: s)) eqn:E.
  - destruct (starts_with_split _ _ E) as [r' Hr]. rewrite Hr.
    change (#"IX" ++ r') with ("I" :: "X" :: r'). rewrite r1_IX. discriminate.
  - rewrite r1_keep by exact E. intros H. injection H as -> _. now exists s.
Qed.

Lemma r2_keep_I (s : str) :
  (forall r, s <> "V" :: r) -> r2 ("I" :: r1 s) = "I" :: r2 (r1 s).
Proof.
  intros H. apply r2_keep. apply not_true_is_false. intros E.
  apply starts_with_split in E as [r E]. simpl in E. injection E as E.
  apply r1_head_V in E as [r' E]. now apply (H r').
Qed.

Lemma r2_nine (t : str) : r2 (repeat "I" 9 ++ t) = repeat "I" 8 ++ r2 ("I" :: t).
Proof.
  cbn [repeat app]. now do 8 (rewrite r2_keep by reflexivity).
Qed.

Lemma expand_eq (s : str) : expand s = r2 (r1 s).
Proof. reflexivity. Qed.

Lemma expand_junction (s : str) : expand s = expand_scan_junction s.
Proof.
  rewrite expand_eq.
  remember (List.length s) as n eqn:Hn. revert s Hn.
  induction n as [n IH] using lt_wf_ind. intros s Hn.
  destruct s as [|c [|d s]]; [reflexivity| |].
  { cbn [expand_scan_junction]. rewrite r1_keep by no_start.
    rewrite r1_nil. apply r2_keep. no_start. }
  cbn [expand_scan_junction].
  assert (IHs : r2 (r1 s) = expand_scan_junction s).
  { apply (IH (List.length s)); [subst n; simpl; lia|reflexivity]. }
  assert (IHd : r2 (r1 (d :: s)) = expand_scan_junction (d :: s)).
  { apply (IH (List.length (d :: s))); [subst n; simpl; lia|reflexivity]. }
  case_char c "I"; cbn [andb].
  - case_char d "X".
    + rewrite r1_IX, r2_nine. destruct s as [|e s]; [reflexivity|].
      assert (IHe : r2 (r1 s) = expand_scan_junction s).
      { apply (IH (List.length s)); [subst n; simpl; lia|reflexivity]. }
      case_char e "V".
      * rewrite (r1_keep "V") by reflexivity. now rewrite r2_IV, IHe.
      * rewrite r2_keep_I, IHs; [reflexivity|congruence].
    + case_char d "V".
      * rewrite (r1_keep "I"), (r1_keep "V") by reflexivity.
        now rewrite r2_IV, IHs.
      * rewrite (r1_keep "I") by no_start.
        rewrite r2_keep_I, IHd; [reflexivity|congruence].
  - rewrite (r1_keep c) by no_start.
    rewrite r2_keep, IHd; [reflexivity|no_start].
Qed.

Lemma expand_scan_junction_cons (c d : ascii) (s : str) :
  expand_scan_junction (c :: d :: s) =
  if Ascii.eqb c "I" && Ascii.eqb d "X" then
    match s with
    | e :: rest =>
      if Ascii.eqb e "V" then repeat "I" 12 ++ expand_scan_junction rest
      else repeat "I" 9 ++ expand_scan_junction s
    | [] => repeat "I" 9
    end
  else if Ascii.eqb c "I" && Ascii.eqb d "V" then
    repeat "I" 4 ++ expand_scan_junction s
  else c :: expand_scan_junction (d :: s).
Proof. reflexivity. Qed.

Lemma expand_scan_cons (c d : ascii) (s : str) :
  expand_scan (c :: d :: s) =
  if Ascii.eqb c "I" && Ascii.eqb d "X" then repeat "I" 9 ++ expand_scan s
  else if Ascii.eqb c "I" && Ascii.eqb d "V" then repeat "I" 4 ++ expand_scan s
  else c :: expand_scan (d :: s).
Proof. reflexivity. Qed.

Lemma value_cons (c d : ascii) (s : str) :
  value (c :: d :: s) =
  if Ascii.eqb c "I" && Ascii.eqb d "V" then 4 + value s
  else if Ascii.eqb c "I" && Ascii.eqb d "X" then 9 + value s
  else symbol_value c + value (d :: s).
Proof. reflexivity. Qed.

(** Away from an "IX" directly followed by 'V' the two scans agree. *)
Lemma expand_scan_agree (s : str) :
  occursb #"IXV" s = false -> expand_scan_junction s = expand_scan s.
Proof.
  remember (List.length s) as n eqn:Hn. revert s Hn.
  induction n as [n IH] using lt_wf_ind. intros s Hn H.
  destruct s as [|c [|d s]]; [reflexivity|reflexivity|].
  cbn [occursb] in H. apply orb_false_iff in H as [H0 H1].
  assert (H2 : occursb #"IXV" s = false).
  { cbn [occursb] in H1. now apply orb_false_iff in H1 as [_ H1]. }
  rewrite expand_scan_junction_cons, expand_scan_cons.
  rewrite (IH (List.length s)), (IH (List.length (d :: s)));
    try reflexivity; try assumption; try (subst n; simpl; lia).
  case_char c "I"; [|reflexivity]. case_char d "X"; [|reflexivity].
  cbn [andb]. destruct s as [|e s]; [reflexivity|].
  case_char e "V"; [discriminate H0|reflexivity].
Qed.

(** The additive value of an expansion is the value of the numeral, away
    from an "IX" directly followed by 'V'. *)
Lemma additive_value_app (s t : str) :
  additive_value (s ++ t) = additive_value s + additive_value t.
Proof. induction s as [|c s IH]; simpl; [reflexivity|rewrite IH; lia]. Qed.

Lemma additive_value_repeat_I (n : nat) : additive_value (repeat "I" n) = n.
Proof. induction n as [|n IH]; [reflexivity|]. cbn [repeat additive_value]. now rewrite IH. Qed.

Lemma additive_value_expand_scan (s : str) :
  additive_value (expand_scan s) = value s.
Proof.
  remember (List.length s) as n eqn:Hn. revert s Hn.
  induction n as [n IH] using lt_wf_ind. intros s Hn.
  destruct s as [|c [|d s]]; [reflexivity|simpl; lia|].
  rewrite expand_scan_cons, value_cons.
  assert (IHs : additive_value (expand_scan s) = value s).
  { apply (IH (List.length s)); [subst n; simpl; lia|reflexivity]. }
  assert (IHd : additive_value (expand_scan (d :: s)) = value (d :: s)).
  { apply (IH (List.length (d :: s))); [subst n; simpl; lia|reflexivity]. }
  case_char c "I"; cbn [andb].
  - case_char d "X".
    + change ("X" =? "V") with false. cbv iota.
      now rewrite additive_value_app, additive_value_repeat_I, IHs.
    + case_char d "V".
      * now rewrite additive_value_app, additive_value_repeat_I, IHs.
      * cbn [additive_value]. now rewrite IHd.
  - cbn [additive_value]. now rewrite IHd.
Qed.

Lemma additive_value_expand (s : str) :
  occursb #"IXV" s = false -> additive_value (expand s) = value s.
Proof.
  intros H. rewrite expand_junction, expand_scan_agree by exact H.
  apply additive_value_expand_scan.
Qed.

End Expand.

(** C6 (as amended): each input is expanded by two replacements one after the
    other, every "IX" by nine 'I' and then, in the result, every "IV" by four
    'I', each of them leftmost first, non-overlapping and without reading
    again what it wrote.  The outcome is that of one scan of the input in
    which nothing written is expanded again, except that a 'V' directly after
    an "IX" is expanded together with the last 'I' written for that "IX".
    [add] checks, sorts and collapses the two inputs expanded in this way,
    each on its own. *)
Theorem expand_two_replacements (s : str) :
  (exists t, Replaced #"IX" (repeat "I" 9) s t /\
             Replaced #"IV" (repeat "I" 4) t (expand s)) /\
  expand s = expand_scan_junction s /\
  forall b,
    add (PStr s) (PStr b) =
    (_ <- check_chars (expand s ++ expand b) ;;
     Ok (canonicalise (PyStr.sorted_reverse (expand s ++ expand b)))).
Proof.
  split; [|split; [apply expand_junction|intros b; apply add_str]].
  exists (PyStr.replace #"IX" #"IIIIIIIII" s).
  split; apply replace_Replaced; discriminate.
Qed.

(** C6 (as stated) fails on "IXV": the input has no "IV", the first
    replacement creates one, and the second expands it. *)
Lemma expand_IXV_expanded_again :
  occursb #"IV" #"IXV" = false /\
  PyStr.replace #"IX" #"IIIIIIIII" #"IXV" = #"IIIIIIIIIV" /\
  expand_scan #"IXV" = #"IIIIIIIIIV" /\
  expand #"IXV" = #"IIIIIIIIIIII" /\
  expand #"IXV" <> expand_scan #"IXV".
Proof. repeat split. discriminate. Qed.

(** ** Canonical form *)

(** C2 fails on the numerals of 7 and 9: the result for 16 is "VXI", not the
    numeral "XVI". *)
Theorem add_VII_IX_not_canonical :
  numeral 7 = #"VII" /\ numeral 9 = #"IX" /\ numeral 16 = #"XVI" /\
  add (PStr #"VII") (PStr #"IX") = Ok #"VXI" /\
  add (PStr (numeral 7)) (PStr (numeral 9)) <> Ok (numeral (7 + 9)).
Proof. repeat split. discriminate. Qed.

(** ** The value of the result *)

Section Collapse.

Import PyStr.

(** Characters that start no occurrence are passed over, rule by rule. *)
Ltac keep old new :=
  repeat (rewrite (replace_keep old new) by first [discriminate | reflexivity]).

Ltac keep_all :=
  keep #"IIIIIIIIII" #"X"; keep #"IIIIIIIII" #"IX"; keep #"IIIII" #"V";
  keep #"VV" #"X"; keep #"IIII" #"IV"; keep #"VIV" #"IX".

Lemma replace_ten (s : str) :
  replace #"IIIIIIIIII" #"X" (repeat "I" 10 ++ s) =
  "X" :: replace #"IIIIIIIIII" #"X" s.
Proof. apply (replace_match #"IIIIIIIIII" #"X"). discriminate. Qed.

Lemma replace_VV (s : str) :
  replace #"VV" #"X" ("V" :: "V" :: s) = "X" :: replace #"VV" #"X" s.
Proof. apply (replace_match #"VV" #"X"). discriminate. Qed.

Lemma collapse_X (s : str) : collapse ("X" :: s) = "X" :: collapse s.
Proof. unfold collapse. now keep_all. Qed.

Lemma collapse_VV (s : str) : collapse ("V" :: "V" :: s) = "X" :: collapse s.
Proof. unfold collapse. keep_all. rewrite replace_VV. now keep_all. Qed.

Lemma collapse_ten (s : str) :
  collapse (repeat "I" 10 ++ s) = "X" :: collapse s.
Proof. unfold collapse. rewrite replace_ten. now keep_all. Qed.

Lemma collapse_V_ten (s : str) :
  collapse ("V" :: repeat "I" 10 ++ s) = "V" :: "X" :: collapse s.
Proof.
  unfold collapse. keep_all. rewrite replace_ten. now keep_all.
Qed.

Lemma collapse_repeat_X (a : nat) (s : str) :
  collapse (repeat "X" a ++ s) = repeat "X" a ++ collapse s.
Proof.
  induction a as [|a IH]; [reflexivity|].
  cbn [repeat app]. now rewrite collapse_X, IH.
Qed.

Lemma collapse_repeat_VV (h : nat) (s : str) :
  collapse (repeat "V" (2 * h) ++ s) = repeat "X" h ++ collapse s.
Proof.
  induction h as [|h IH]; [reflexivity|].
  replace (2 * S h) with (S (S (2 * h))) by lia.
  cbn [repeat app]. now rewrite collapse_VV, IH.
Qed.

Lemma collapse_repeat_tens (q : nat) (s : str) :
  collapse (repeat "I" (10 * q) ++ s) = repeat "X" q ++ collapse s.
Proof.
  induction q as [|q IH]; [reflexivity|].
  replace (10 * S q) with (10 + 10 * q) by lia.
  rewrite repeat_app, <- app_assoc, collapse_ten, IH. reflexivity.
Qed.

Lemma value_X (s : str) : value ("X" :: s) = 10 + value s.
Proof. destruct s; reflexivity. Qed.

Lemma value_V (s : str) : value ("V" :: s) = 5 + value s.
Proof. destruct s; reflexivity. Qed.

Lemma value_repeat_X (n : nat) (s : str) :
  value (repeat "X" n ++ s) = 10 * n + value s.
Proof.
  induction n as [|n IH]; [reflexivity|].
  cbn [repeat app]. rewrite value_X, IH. lia.
Qed.

Lemma fix_up_X (s : str) : fix_up ("X" :: s) = "X" :: s.
Proof. reflexivity. Qed.

Lemma fix_up_VXc (c : ascii) (s : str) :
  fix_up ("V" :: "X" :: c :: s) = "V" :: "X" :: c :: s.
Proof. reflexivity. Qed.

(** A property of every number below ten, by cases. *)
Ltac below_ten r H :=
  do 10 (destruct r as [|r]; [vm_compute; try reflexivity; try lia|]);
  exfalso; lia.

Lemma units_value (r : nat) :
  r < 10 ->
  value (collapse (repeat "I" r)) = r /\
  value (fix_up (collapse (repeat "I" r))) = r.
Proof. intros H. below_ten r H; split; reflexivity. Qed.

Lemma V_units_value (r : nat) :
  r < 10 ->
  value (collapse ("V" :: repeat "I" r)) = 5 + r /\
  value (fix_up (collapse ("V" :: repeat "I" r))) = 5 + r.
Proof. intros H. below_ten r H; split; reflexivity. Qed.

Lemma VX_units_value (r : nat) :
  r < 10 ->
  value (fix_up ("V" :: "X" :: collapse (repeat "I" r))) = 15 + r.
Proof. intros H. below_ten r H. Qed.

(** The collapse of at most one 'V' followed by 'I's, alone and after the
    corrections. *)
Lemma collapse_VI_value (p q r : nat) :
  p < 2 -> r < 10 ->
  let Z := collapse (repeat "V" p ++ repeat "I" (10 * q) ++ repeat "I" r) in
  value Z = 5 * p + 10 * q + r /\ value (fix_up Z) = 5 * p + 10 * q + r.
Proof.
  intros Hp Hr Z. subst Z.
  destruct (units_value r Hr) as [U1 U2].
  destruct p as [|[|p]]; [| |lia]; cbn [repeat app].
  - rewrite collapse_repeat_tens. destruct q as [|q].
    + cbn [repeat app]. rewrite U1, U2. lia.
    + cbn [repeat app]. rewrite fix_up_X, value_X, value_repeat_X, U1. lia.
  - destruct q as [|q].
    + destruct (V_units_value r Hr) as [V1 V2].
      rewrite Nat.mul_0_r. cbn [repeat app]. rewrite V1, V2. lia.
    + replace (10 * S q) with (10 + 10 * q) by lia.
      rewrite repeat_app, <- app_assoc, collapse_V_ten, collapse_repeat_tens.
      split.
      * rewrite value_V, value_X, value_repeat_X, U1. lia.
      * destruct q as [|q]; cbn [repeat app].
        -- rewrite VX_units_value by exact Hr. lia.
        -- rewrite fix_up_VXc, value_V, !value_X, value_repeat_X, U1. lia.
Qed.

(** The result on a sorted string has the value of its symbols. *)
Lemma canonicalise_value (a b c : nat) :
  value (canonicalise (repeat "X" a ++ repeat "V" b ++ repeat "I" c)) =
  10 * a + 5 * b + c.
Proof.
  pose proof (Nat.div_mod_eq b 2) as Hb.
  pose proof (Nat.div_mod_eq c 10) as Hc.
  pose proof (Nat.mod_upper_bound b 2 ltac:(lia)) as Hp.
  pose proof (Nat.mod_upper_bound c 10 ltac:(lia)) as Hr.
  destruct (collapse_VI_value (b mod 2) (c / 10) (c mod 10) Hp Hr) as [Z1 Z2].
  rewrite Hb, Hc at 1.
  rewrite !repeat_app, <- !app_assoc.
  unfold canonicalise.
  rewrite collapse_repeat_X, collapse_repeat_VV, app_assoc, <- repeat_app.
  destruct (a + b / 2) as [|k] eqn:Hk.
  - cbn [repeat app]. rewrite Z2. lia.
  - cbn [repeat app]. rewrite fix_up_X, value_X, value_repeat_X, Z1. lia.
Qed.

End Collapse.

Section SortedBlocks.

Import PyStr.

Lemma additive_value_perm (s t : str) :
  Permutation s t -> additive_value s = additive_value t.
Proof.
  induction 1 as [|c s t _ IH|c d s|s t u _ IH1 _ IH2]; simpl; lia.
Qed.

Lemma additive_value_repeat (c : ascii) (n : nat) :
  additive_value (repeat c n) = symbol_value c * n.
Proof.
  induction n as [|n IH]; [simpl; lia|].
  cbn [repeat additive_value]. rewrite IH. lia.
Qed.

Lemma additive_value_blocks (a b c : nat) :
  additive_value (repeat "X" a ++ repeat "V" b ++ repeat "I" c) =
  10 * a + 5 * b + c.
Proof.
  rewrite !additive_value_app, !additive_value_repeat.
  change (symbol_value "X") with 10. change (symbol_value "V") with 5.
  change (symbol_value "I") with 1. lia.
Qed.

(** A validated string is, up to order, a block of X, a block of V and a
    block of I. *)
Lemma roman_blocks (m : str) :
  Forall roman m ->
  exists a b c,
    Permutation m (repeat "X" a ++ repeat "V" b ++ repeat "I" c).
Proof.
  induction 1 as [|x m Hx _ (a & b & c & IH)].
  - now exists 0, 0, 0.
  - apply roman_cases in Hx as [-> | [-> | ->]].
    + exists a, b, (S c). rewrite IH.
      change (repeat "I" (S c)) with ("I" :: repeat "I" c).
      rewrite !app_assoc. now apply Permutation_cons_app.
    + exists a, (S b), c. rewrite IH.
      change (repeat "V" (S b) ++ repeat "I" c)
        with ("V" :: repeat "V" b ++ repeat "I" c).
      now apply Permutation_cons_app.
    + exists (S a), b, c. rewrite IH. reflexivity.
Qed.

Lemma insert_desc_ge (x : ascii) (l : list ascii) :
  Forall (fun d => ord d <= ord x) l -> insert_desc x l = x :: l.
Proof.
  induction 1 as [|d l Hd _ IH]; [reflexivity|]. simpl.
  destruct (ord d <? ord x)%nat eqn:E; [reflexivity|].
  apply Nat.ltb_ge in E. rewrite IH.
  now rewrite (ord_inj d x) by lia.
Qed.

Lemma Forall_repeat_le (x c : ascii) (n : nat) :
  ord c <= ord x -> Forall (fun d => ord d <= ord x) (repeat c n).
Proof.
  intros H. apply Forall_forall. intros d Hd.
  apply repeat_spec in Hd. now subst.
Qed.

(** Such blocks are left as they are by the sort. *)
Lemma sorted_reverse_blocks (a b c : nat) :
  sorted_reverse (repeat "X" a ++ repeat "V" b ++ repeat "I" c) =
  repeat "X" a ++ repeat "V" b ++ repeat "I" c.
Proof.
  assert (HI : sorted_reverse (repeat "I" c) = repeat "I" c).
  { induction c as [|c IH]; [reflexivity|].
    cbn [repeat sorted_reverse]. rewrite IH.
    apply insert_desc_ge. now apply Forall_repeat_le. }
  assert (HV : sorted_reverse (repeat "V" b ++ repeat "I" c) =
               repeat "V" b ++ repeat "I" c).
  { induction b as [|b IH]; [exact HI|].
    cbn [repeat app sorted_reverse]. rewrite IH.
    apply insert_desc_ge.
    apply Forall_app; split; apply Forall_repeat_le; vm_compute; lia. }
  induction a as [|a IH]; [exact HV|].
  cbn [repeat app sorted_reverse]. rewrite IH.
  apply insert_desc_ge.
  repeat (apply Forall_app; split); apply Forall_repeat_le; vm_compute; lia.
Qed.

(** The result on any validated merged string has the value of its
    symbols. *)
Lemma canonicalise_sorted_value (m : str) :
  Forall roman m ->
  value (canonicalise (sorted_reverse m)) = additive_value m.
Proof.
  intros H. destruct (roman_blocks m H) as (a & b & c & P).
  rewrite (sorted_reverse_permutation _ _ P), sorted_reverse_blocks.
  rewrite (additive_value_perm _ _ P), additive_value_blocks.
  apply canonicalise_value.
Qed.

End SortedBlocks.

(** C1 (as amended): for two strings that pass validation and in which no
    "IX" is directly followed by 'V', the value of the result is the sum of
    the values of the two inputs, the value of a string being the sum of its
    symbols with each pair IV and IX, read from the left, counting 4 and
    9. *)
Theorem add_value (a b s : str) :
  occursb #"IXV" a = false ->
  occursb #"IXV" b = false ->
  add (PStr a) (PStr b) = Ok s ->
  value s = value a + value b.
Proof.
  intros Ha Hb H.
  apply add_ok_inv in H as (a' & b' & Ea & Eb & Hv & ->).
  injection Ea as <-. injection Eb as <-.
  rewrite canonicalise_sorted_value by exact Hv.
  rewrite additive_value_app.
  now rewrite !additive_value_expand by assumption.
Qed.

Lemma add_value_witness :
  occursb #"IXV" #"XIX" = false /\
  occursb #"IXV" #"XVI" = false /\
  add (PStr #"XIX") (PStr #"XVI") = Ok #"XXVX" /\
  value #"XXVX" = value #"XIX" + value #"XVI".
Proof.
  split; [reflexivity|]. split; [reflexivity|]. split; [reflexivity|].
  apply (add_value #"XIX" #"XVI" #"XXVX"); reflexivity.
Defined.

(** C1 (as stated) fails on "IXV" and "I": both pass validation, the inputs
    are worth 14 and 1, the result "XIII" is worth 13. *)
Lemma add_IXV_value :
  add (PStr #"IXV") (PStr #"I") = Ok #"XIII" /\
  value #"IXV" = 14 /\ value #"I" = 1 /\ value #"XIII" = 13 /\
  value #"XIII" <> value #"IXV" + value #"I".
Proof. repeat split. discriminate. Qed.

(** ** The result in closed form *)

Section ClosedForm.

Import PyStr.

Ltac by_units r :=
  do 10 (destruct r as [|r]; [try reflexivity|]); exfalso; lia.

Lemma units_collapse (r : nat) : r < 10 -> collapse (repeat "I" r) = units r.
Proof. intros H. by_units r. Qed.

Lemma V_units_collapse (r : nat) :
  r < 10 -> collapse ("V" :: repeat "I" r) = V_units r.
Proof. intros H. by_units r. Qed.

Lemma collapse_blocks (a b c : nat) : collapse (blocks a b c) = collapsed a b c.
Proof.
  unfold blocks, collapsed.
  pose proof (Nat.div_mod_eq b 2) as Hb.
  pose proof (Nat.div_mod_eq c 10) as Hc.
  pose proof (Nat.mod_upper_bound b 2 ltac:(lia)) as Hp.
  pose proof (Nat.mod_upper_bound c 10 ltac:(lia)) as Hr.
  rewrite Hb, Hc at 1.
  rewrite !repeat_app, <- !app_assoc.
  rewrite collapse_repeat_X, collapse_repeat_VV.
  do 2 f_equal. clear Hb.
  destruct (b mod 2) as [|[|p]]; [| |lia]; cbn [repeat app].
  - now rewrite collapse_repeat_tens, units_collapse.
  - destruct (c / 10) as [|q].
    + rewrite Nat.mul_0_r. cbn [repeat app]. now apply V_units_collapse.
    + replace (10 * S q) with (10 + 10 * q) by lia.
      rewrite repeat_app, <- app_assoc, collapse_V_ten, collapse_repeat_tens.
      now rewrite units_collapse.
Qed.

Lemma numeral_split (k j : nat) :
  numeral (10 * k + j) = repeat "X" k ++ numeral j.
Proof.
  unfold numeral. replace (10 * k + j) with (j + k * 10) by lia.
  rewrite Nat.div_add, Nat.Div0.mod_add by lia.
  rewrite (Nat.add_comm (j / 10)), repeat_app, <- app_assoc. reflexivity.
Qed.

Lemma numeral_units (r : nat) : r < 10 -> numeral r = units r.
Proof. intros H. by_units r. Qed.

Lemma fix_up_repeat_X (n : nat) (s : str) :
  (n = 0 -> fix_up s = s) -> fix_up (repeat "X" n ++ s) = repeat "X" n ++ s.
Proof. destruct n as [|n]; intros H; [now apply H|reflexivity]. Qed.

Lemma fix_up_units (r : nat) : r < 10 -> fix_up (units r) = units r.
Proof. intros H. by_units r. Qed.

(** The tail of [collapsed], after the X that come from X and from pairs of
    V. *)
Lemma tail_numeral_iff (k p q r : nat) :
  p < 2 -> r < 10 ->
  fix_up (repeat "X" k ++
          match p with
          | 0 => repeat "X" q ++ units r
          | _ =>
            match q with
            | 0 => V_units r
            | S q' => "V" :: "X" :: repeat "X" q' ++ units r
            end
          end) =
  repeat "X" k ++ numeral (10 * q + (5 * p + r)) <->
  p = 0 \/ (q = 0 /\ r < 9) \/ (k = 0 /\ (q = 0 /\ r = 9 \/ q = 1 /\ r = 0)).
Proof.
  intros Hp Hr. rewrite numeral_split.
  destruct p as [|[|p]]; [| |lia].
  - split; [auto|intros _].
    rewrite Nat.mul_0_r, Nat.add_0_l, numeral_units by exact Hr.
    apply fix_up_repeat_X. intros _. apply fix_up_repeat_X. intros _.
    now apply fix_up_units.
  - destruct q as [|q]; cbn [repeat app].
    + do 9 (destruct r as [|r];
            [split; [intros _; right; left; lia|intros _];
             apply fix_up_repeat_X; reflexivity|]).
      destruct r as [|r]; [|lia].
      destruct k as [|k].
      * split; [intros _; lia|reflexivity].
      * split; [intros H|intros H; exfalso; lia].
        rewrite fix_up_repeat_X in H by discriminate.
        apply app_inv_head in H. discriminate H.
    + destruct k as [|k]; cbn [repeat app].
      * destruct q as [|q]; cbn [repeat app].
        -- destruct r as [|r]; [split; [intros _; lia|reflexivity]|].
           split; [intros H|intros H; exfalso; lia].
           exfalso. revert H.
           do 9 (destruct r as [|r]; [discriminate|]). lia.
        -- split; [intros H|intros H; exfalso; lia].
           rewrite fix_up_VXc in H. discriminate H.
      * split; [intros H|intros H; exfalso; lia].
        rewrite fix_up_X in H. injection H as H.
        apply app_inv_head in H. discriminate H.
Qed.

(** On a sorted string the result is the numeral of the value exactly for
    the numbers of [collapses_to_numeral]. *)
Lemma canonicalise_blocks_numeral (a b c : nat) :
  canonicalise (blocks a b c) = numeral (10 * a + 5 * b + c) <->
  collapses_to_numeral a b c.
Proof.
  unfold canonicalise, collapses_to_numeral.
  rewrite collapse_blocks. unfold collapsed.
  pose proof (Nat.div_mod_eq b 2) as Hb.
  pose proof (Nat.div_mod_eq c 10) as Hc.
  pose proof (Nat.mod_upper_bound b 2 ltac:(lia)) as Hp.
  pose proof (Nat.mod_upper_bound c 10 ltac:(lia)) as Hr.
  pose proof (tail_numeral_iff (a + b / 2) (b mod 2) (c / 10) (c mod 10) Hp Hr)
    as T.
  replace (10 * a + 5 * b + c)
    with (10 * (a + b / 2) + (10 * (c / 10) + (5 * (b mod 2) + c mod 10)))
    by lia.
  rewrite (numeral_split (a + b / 2)).
  rewrite T. lia.
Qed.

End ClosedForm.

(** ** Acceptance *)

Section Acceptance.

Import PyStr.

Ltac case_char c x :=
  destruct (Ascii.eqb_spec c x) as [->|?];
  [|rewrite ?(proj2 (Ascii.eqb_neq c x)), ?(eqb_neq_sym c x) by assumption].

Lemma roman_I : roman "I".
Proof. apply roman_cases. auto. Qed.

Lemma roman_V : roman "V".
Proof. apply roman_cases. auto. Qed.

Lemma roman_X : roman "X".
Proof. apply roman_cases. auto. Qed.

(** A list of symbols followed by a validated string. *)
Ltac symbols :=
  repeat first
    [ apply Forall_nil
    | apply Forall_cons;
      [first [apply roman_I | apply roman_V | apply roman_X | assumption]|] ].

Lemma expand_scan_junction_roman (s : str) :
  Forall roman (expand_scan_junction s) -> Forall roman s.
Proof.
  remember (List.length s) as n eqn:Hn. revert s Hn.
  induction n as [n IH] using lt_wf_ind. intros s Hn.
  destruct s as [|c [|d s]]; [constructor|easy|].
  rewrite expand_scan_junction_cons.
  assert (IHs : Forall roman (expand_scan_junction s) -> Forall roman s).
  { apply (IH (List.length s)); [subst n; simpl; lia|reflexivity]. }
  assert (IHd : Forall roman (expand_scan_junction (d :: s)) ->
                Forall roman (d :: s)).
  { apply (IH (List.length (d :: s))); [subst n; simpl; lia|reflexivity]. }
  case_char c "I"; cbn [andb].
  - case_char d "X".
    + destruct s as [|e s]; [intros _; symbols|].
      case_char e "V"; intros H; apply Forall_app in H as [_ H].
      * symbols.
        apply (IH (List.length s)); [subst n; simpl; lia|reflexivity|exact H].
      * symbols. now apply IHs.
    + case_char d "V"; intros H.
      * apply Forall_app in H as [_ H]. symbols. now apply IHs.
      * inversion H; subst. symbols. now apply IHd.
  - intros H. inversion H; subst. symbols. now apply IHd.
Qed.

(** Expansion neither removes nor creates a character outside I, V, X. *)
Lemma expand_roman (s : str) : Forall roman (expand s) <-> Forall roman s.
Proof.
  split.
  - rewrite expand_junction. apply expand_scan_junction_roman.
  - intros H. unfold expand.
    repeat (apply replace_Forall; [symbols|]).
    exact H.
Qed.

End Acceptance.

(** ** Numbers of symbols *)

Section Counting.

Import PyStr.

Lemma Forall_roman_blocks (a b c : nat) : Forall roman (blocks a b c).
Proof.
  unfold blocks. repeat (apply Forall_app; split);
    apply Forall_forall; intros x Hx; apply repeat_spec in Hx; subst;
    auto using roman_I, roman_V, roman_X.
Qed.

(** A validated string is, up to order, the blocks of its X, V and I. *)
Lemma roman_blocks_count (m : str) :
  Forall roman m ->
  Permutation m (blocks (count "X" m) (count "V" m) (count "I" m)).
Proof.
  unfold blocks, count. induction 1 as [|x m Hx _ IH]; [reflexivity|].
  apply roman_cases in Hx as [-> | [-> | ->]].
  - rewrite (count_occ_cons_eq _ m (x:="I") (y:="I")) by reflexivity.
    rewrite !count_occ_cons_neq by discriminate.
    cbn [repeat]. rewrite !app_assoc. apply Permutation_cons_app.
    now rewrite <- !app_assoc.
  - rewrite (count_occ_cons_eq _ m (x:="V") (y:="V")) by reflexivity.
    rewrite !count_occ_cons_neq by discriminate.
    cbn [repeat app]. now apply Permutation_cons_app.
  - rewrite (count_occ_cons_eq _ m (x:="X") (y:="X")) by reflexivity.
    rewrite !count_occ_cons_neq by discriminate.
    cbn [repeat app]. now constructor.
Qed.

Lemma additive_value_count (m : str) :
  Forall roman m ->
  additive_value m = 10 * count "X" m + 5 * count "V" m + count "I" m.
Proof.
  intros H. rewrite (additive_value_perm _ _ (roman_blocks_count m H)) at 1.
  apply additive_value_blocks.
Qed.

(** The result of [add] from the numbers of symbols of the two
    expansions. *)
Lemma add_blocks (a b : str) :
  let m := expand a ++ expand b in
  Forall roman m ->
  add (PStr a) (PStr b) =
  Ok (canonicalise (blocks (count "X" m) (count "V" m) (count "I" m))).
Proof.
  intros m H. rewrite add_ok by exact H. fold m.
  rewrite (sorted_reverse_permutation _ _ (roman_blocks_count m H)).
  unfold blocks. now rewrite sorted_reverse_blocks.
Qed.

Lemma add_ok_blocks (a b s : str) :
  add (PStr a) (PStr b) = Ok s ->
  exists x v i, s = canonicalise (blocks x v i).
Proof.
  intros H. apply add_ok_inv in H as (a' & b' & Ea & Eb & Hv & ->).
  injection Ea as <-. injection Eb as <-.
  pose proof (add_blocks a b Hv) as E. rewrite add_ok in E by exact Hv.
  injection E as E. eauto.
Qed.

End Counting.

(** ** Numerals as inputs *)

Section Numerals.

Import PyStr.

Ltac by_units r :=
  do 10 (destruct r as [|r]; [try reflexivity|]); exfalso; lia.

Lemma expand_X (s : str) : expand ("X" :: s) = "X" :: expand s.
Proof.
  unfold expand.
  rewrite (replace_keep #"IX" #"IIIIIIIII") by first [discriminate | reflexivity].
  now rewrite (replace_keep #"IV" #"IIII") by first [discriminate | reflexivity].
Qed.

Lemma expand_repeat_X (k : nat) (s : str) :
  expand (repeat "X" k ++ s) = repeat "X" k ++ expand s.
Proof.
  induction k as [|k IH]; [reflexivity|].
  cbn [repeat app]. now rewrite expand_X, IH.
Qed.

Lemma expand_units (r : nat) :
  r < 10 -> expand (units r) = repeat "V" (fives r) ++ repeat "I" (ones r).
Proof. intros H. by_units r. Qed.

Lemma fives_ones (r : nat) : r < 10 -> 5 * fives r + ones r = r.
Proof. intros H. by_units r. Qed.

(** The expansion of a numeral is sorted: its tens as X, then at most one V,
    then the I. *)
Lemma expand_numeral (n : nat) :
  expand (numeral n) = blocks (n / 10) (fives (n mod 10)) (ones (n mod 10)).
Proof.
  unfold numeral, blocks. rewrite expand_repeat_X, expand_units; [reflexivity|].
  apply Nat.mod_upper_bound. lia.
Qed.

Lemma blocks_app (a b c a' b' c' : nat) :
  Permutation (blocks a b c ++ blocks a' b' c')
              (blocks (a + a') (b + b') (c + c')).
Proof.
  unfold blocks. rewrite !repeat_app, <- !app_assoc.
  apply Permutation_app_head.
  rewrite (app_assoc (repeat "V" b) (repeat "I" c)).
  rewrite (Permutation_app_swap_app (repeat "V" b ++ repeat "I" c)
             (repeat "X" a')), <- !app_assoc.
  apply Permutation_app_head, Permutation_app_head.
  apply Permutation_app_swap_app.
Qed.

Lemma add_numerals_blocks (m n : nat) :
  add (PStr (numeral m)) (PStr (numeral n)) =
  Ok (canonicalise
        (blocks (m / 10 + n / 10)
                (fives (m mod 10) + fives (n mod 10))
                (ones (m mod 10) + ones (n mod 10)))).
Proof.
  rewrite add_ok; rewrite !expand_numeral.
  - rewrite (sorted_reverse_permutation _ _ (blocks_app _ _ _ _ _ _)).
    unfold blocks at 1. now rewrite sorted_reverse_blocks.
  - apply Forall_app. split; apply Forall_roman_blocks.
Qed.

(** The numerals of [m] and [n] add up to the numeral of [m + n] exactly
    when the two numbers do not clash. *)
Lemma add_numerals (m n : nat) :
  add (PStr (numeral m)) (PStr (numeral n)) = Ok (numeral (m + n)) <->
  ~ clash m n.
Proof.
  rewrite add_numerals_blocks.
  pose proof (Nat.div_mod_eq m 10) as Em.
  pose proof (Nat.div_mod_eq n 10) as En.
  pose proof (Nat.mod_upper_bound m 10 ltac:(lia)) as Hm.
  pose proof (Nat.mod_upper_bound n 10 ltac:(lia)) as Hn.
  pose proof (fives_ones _ Hm) as Fm.
  pose proof (fives_ones _ Hn) as Fn.
  replace (m + n)
    with (10 * (m / 10 + n / 10) +
          5 * (fives (m mod 10) + fives (n mod 10)) +
          (ones (m mod 10) + ones (n mod 10))) at 1 by lia.
  transitivity
    (collapses_to_numeral (m / 10 + n / 10)
       (fives (m mod 10) + fives (n mod 10))
       (ones (m mod 10) + ones (n mod 10))).
  { rewrite <- canonicalise_blocks_numeral. split; congruence. }
  unfold collapses_to_numeral, clash. clear Fm Fn.
  remember (m mod 10) as r eqn:Er. remember (n mod 10) as r' eqn:Er'.
  remember (m / 10) as k eqn:Ek. remember (n / 10) as k' eqn:Ek'.
  clear Er Er' Ek Ek'.
  do 10 (destruct r as [|r];
    [do 10 (destruct r' as [|r']; [cbn; lia|]); exfalso; lia|]).
  exfalso; lia.
Qed.

End Numerals.

(** ** The shape of a result *)

Section Shape.

Import PyStr.

Ltac by_units r :=
  do 10 (destruct r as [|r]; [try reflexivity|]); exfalso; lia.

Lemma fix_up_cases (s : str) :
  fix_up s = s \/ fix_up s = #"XV" \/ fix_up s = #"XIV".
Proof.
  rewrite fix_up_post_correct. unfold post_correct.
  destruct (list_eq_dec ascii_dec s ["V"; "X"]); [auto|].
  destruct (list_eq_dec ascii_dec s ["V"; "I"; "X"]); auto.
Qed.

(** A property of every result on a sorted string, from the few shapes a
    result can have. *)
Lemma canonicalise_blocks_shape (P : str -> Prop) :
  (forall s, P s -> P ("X" :: s)) ->
  (forall r, r < 10 -> P (units r)) ->
  (forall r, r < 10 -> P (V_units r)) ->
  (forall q r, r < 10 -> P ("V" :: "X" :: repeat "X" q ++ units r)) ->
  forall a b c, P (canonicalise (blocks a b c)).
Proof.
  intros PX Pu PV PVX a b c.
  assert (Prep : forall n s, P s -> P (repeat "X" n ++ s)).
  { induction n as [|n IH]; intros s Hs; [exact Hs|]. apply PX, IH, Hs. }
  assert (PXV : P #"XV") by exact (PX _ (Pu 5 ltac:(lia))).
  assert (PXIV : P #"XIV") by exact (PX _ (Pu 4 ltac:(lia))).
  unfold canonicalise. rewrite collapse_blocks.
  destruct (fix_up_cases (collapsed a b c)) as [-> | [-> | ->]];
    [|assumption|assumption].
  unfold collapsed.
  pose proof (Nat.mod_upper_bound c 10 ltac:(lia)) as Hr.
  apply Prep. destruct (b mod 2); [now apply Prep, Pu|].
  destruct (c / 10); [now apply PV|now apply PVX].
Qed.

Lemma occursb_IXV_repeat_X (q : nat) (s : str) :
  occursb #"IXV" (repeat "X" q ++ s) = occursb #"IXV" s.
Proof. induction q as [|q IH]; [reflexivity|exact IH]. Qed.

(** No result has an "IX" directly followed by 'V'. *)
Lemma canonicalise_blocks_no_IXV (a b c : nat) :
  occursb #"IXV" (canonicalise (blocks a b c)) = false.
Proof.
  apply (canonicalise_blocks_shape (fun s => occursb #"IXV" s = false)).
  - intros s H. exact H.
  - intros r H. by_units r.
  - intros r H. by_units r.
  - intros q r H.
    change (occursb #"IXV" (repeat "X" q ++ units r) = false).
    rewrite occursb_IXV_repeat_X. by_units r.
Qed.

Lemma count_repeat_X (c : ascii) (q : nat) (s : str) :
  c <> "X" -> count c (repeat "X" q ++ s) = count c s.
Proof.
  intros H. unfold count.
  now rewrite count_occ_app, count_occ_repeat_neq.
Qed.

(** No result has more than three I or more than two V. *)
Lemma canonicalise_blocks_counts (a b c : nat) :
  count "I" (canonicalise (blocks a b c)) <= 3 /\
  count "V" (canonicalise (blocks a b c)) <= 2.
Proof.
  apply (canonicalise_blocks_shape
           (fun s => count "I" s <= 3 /\ count "V" s <= 2)).
  - intros s H. unfold count in *.
    now rewrite !count_occ_cons_neq by discriminate.
  - intros r H. do 10 (destruct r as [|r]; [vm_compute; lia|]). lia.
  - intros r H. do 10 (destruct r as [|r]; [vm_compute; lia|]). lia.
  - intros q r H.
    change ("V" :: "X" :: repeat "X" q ++ units r)
      with (["V"] ++ repeat "X" (S q) ++ units r).
    unfold count. rewrite !(count_occ_app _ ["V"]).
    fold (count "I" (repeat "X" (S q) ++ units r)).
    fold (count "V" (repeat "X" (S q) ++ units r)).
    rewrite !count_repeat_X by discriminate.
    do 10 (destruct r as [|r]; [vm_compute; lia|]). lia.
Qed.

Lemma value_numeral (n : nat) : value (numeral n) = n.
Proof.
  unfold numeral. rewrite value_repeat_X.
  pose proof (Nat.div_mod_eq n 10) as E.
  pose proof (Nat.mod_upper_bound n 10 ltac:(lia)) as H.
  assert (U : value (units (n mod 10)) = n mod 10).
  { remember (n mod 10) as r. clear Heqr E. by_units r. }
  rewrite U. lia.
Qed.

(** The value of a result, for inputs without "IX" directly followed by
    'V'. *)
Lemma add_sum_value (a b s : str) :
  occursb #"IXV" a = false ->
  occursb #"IXV" b = false ->
  add (PStr a) (PStr b) = Ok s ->
  value s = value a + value b /\ occursb #"IXV" s = false /\ Forall roman s.
Proof.
  intros Ha Hb H. split; [|split].
  - apply add_ok_inv in H as (a' & b' & Ea & Eb & Hv & ->).
    injection Ea as <-. injection Eb as <-.
    rewrite canonicalise_sorted_value by exact Hv.
    rewrite additive_value_app.
    now rewrite !additive_value_expand by assumption.
  - apply add_ok_blocks in H as (x & v & i & ->).
    apply canonicalise_blocks_no_IXV.
  - apply add_ok_blocks in H as (x & v & i & ->).
    apply canonicalise_Forall; auto using roman_I, roman_V, roman_X.
    apply Forall_roman_blocks.
Qed.

End Shape.

(** ** Further properties of [add] *)

(** X1: [add] returns a string exactly when both arguments are strings made
    of the characters I, V and X only; the expansion that precedes the check
    neither hides nor creates another character. *)
Theorem add_accepts_iff (x y : pyobj) :
  (exists s, add x y = Ok s) <->
  exists a b, x = PStr a /\ y = PStr b /\
    Forall (fun c => In c ROMAN_NUMERALS) a /\
    Forall (fun c => In c ROMAN_NUMERALS) b.
Proof.
  split.
  - intros [s H]. apply add_ok_inv in H as (a & b & -> & -> & Hv & _).
    exists a, b. apply Forall_app in Hv as [Ha Hb].
    repeat split; now apply expand_roman.
  - intros (a & b & -> & -> & Ha & Hb). eexists. apply add_ok.
    apply Forall_app. split; now apply expand_roman.
Qed.

(** X2: whatever the length of the inputs, the value of the result is the
    sum of the symbols of the two expanded inputs: one pass of the rules
    loses nothing. *)
Theorem add_additive_value (a b s : str) :
  add (PStr a) (PStr b) = Ok s ->
  value s = additive_value (expand a) + additive_value (expand b).
Proof.
  intros H. apply add_ok_inv in H as (a' & b' & Ea & Eb & Hv & ->).
  injection Ea as <-. injection Eb as <-.
  rewrite canonicalise_sorted_value by exact Hv.
  apply additive_value_app.
Qed.

Lemma add_additive_value_witness :
  add (PStr #"IXV") (PStr #"I") = Ok #"XIII" /\
  value #"XIII" = additive_value (expand #"IXV") + additive_value (expand #"I").
Proof.
  split; [reflexivity|].
  apply (add_additive_value #"IXV" #"I" #"XIII"). reflexivity.
Defined.

(** X3: on inputs that pass the check the result depends only on the
    numbers of X, V and I in the two expansions: pairs of V and tens of I
    become X, put after the X of the inputs; an odd V stays in front of the X
    that come from the I; then the two corrections apply. *)
Theorem add_closed_form (a b : str) :
  check_chars (expand a ++ expand b) = Ok tt ->
  add (PStr a) (PStr b) =
  Ok (fix_up (collapsed (count "X" (expand a ++ expand b))
                        (count "V" (expand a ++ expand b))
                        (count "I" (expand a ++ expand b)))).
Proof.
  intros H. apply check_chars_ok in H.
  rewrite (add_blocks a b H). unfold canonicalise.
  now rewrite collapse_blocks.
Qed.

Lemma add_closed_form_witness :
  check_chars (expand #"XIX" ++ expand #"VI") = Ok tt /\
  add (PStr #"XIX") (PStr #"VI") =
  Ok (fix_up (collapsed (count "X" (expand #"XIX" ++ expand #"VI"))
                        (count "V" (expand #"XIX" ++ expand #"VI"))
                        (count "I" (expand #"XIX" ++ expand #"VI")))).
Proof.
  split; [reflexivity|].
  apply (add_closed_form #"XIX" #"VI"). reflexivity.
Defined.

(** X4: on inputs that pass the check the result is the numeral of the sum
    of the symbols exactly when the number of V in the two expansions is
    even, or there are fewer than nine I, or the expansions hold no X, one V
    and nine or ten I. *)
Theorem add_numeral_iff (a b : str) :
  check_chars (expand a ++ expand b) = Ok tt ->
  add (PStr a) (PStr b) =
    Ok (numeral (additive_value (expand a ++ expand b))) <->
  collapses_to_numeral (count "X" (expand a ++ expand b))
                       (count "V" (expand a ++ expand b))
                       (count "I" (expand a ++ expand b)).
Proof.
  intros H. apply check_chars_ok in H.
  rewrite (add_blocks a b H), (additive_value_count _ H).
  rewrite <- canonicalise_blocks_numeral. split; congruence.
Qed.

Lemma add_numeral_iff_witness :
  check_chars (expand #"VII" ++ expand #"IX") = Ok tt /\
  (add (PStr #"VII") (PStr #"IX") =
     Ok (numeral (additive_value (expand #"VII" ++ expand #"IX"))) <->
   collapses_to_numeral (count "X" (expand #"VII" ++ expand #"IX"))
                        (count "V" (expand #"VII" ++ expand #"IX"))
                        (count "I" (expand #"VII" ++ expand #"IX"))).
Proof.
  split; [reflexivity|].
  apply (add_numeral_iff #"VII" #"IX"). reflexivity.
Defined.

(** X5: for any two numbers, the numerals of [m] and [n] add up to the
    numeral of [m + n] exactly when it is not the case that one number ends
    in 9 and the other in 5, 6, 7 or 8, the sums 14 and 15 apart. *)
Theorem add_numerals_iff (m n : nat) :
  add (PStr (numeral m)) (PStr (numeral n)) = Ok (numeral (m + n)) <->
  ~ ((m mod 10 = 9 /\ 5 <= n mod 10 <= 8 \/
      n mod 10 = 9 /\ 5 <= m mod 10 <= 8) /\
     m + n <> 14 /\ m + n <> 15).
Proof. exact (add_numerals m n). Qed.

(** X6: adding "I" to the numeral of any number gives the numeral of the
    next number. *)
Theorem add_successor (n : nat) :
  add (PStr (numeral n)) (PStr #"I") = Ok (numeral (S n)).
Proof.
  replace (S n) with (n + 1) by lia.
  apply (add_numerals n 1). unfold clash.
  change (1 mod 10) with 1. lia.
Qed.

(** X7: adding the empty string to the numeral of any number gives the
    numeral back: collapsing undoes the expansion of a numeral. *)
Theorem add_numeral_empty (n : nat) :
  add (PStr (numeral n)) (PStr #"") = Ok (numeral n).
Proof.
  replace (numeral n) with (numeral (n + 0)) at 2 by (f_equal; lia).
  apply (add_numerals n 0). unfold clash.
  change (0 mod 10) with 0. lia.
Qed.

(** X8: the numerals of any two numbers are accepted, and the result is
    worth the sum of the two numbers, also where it is not a numeral. *)
Theorem add_numerals_value (m n : nat) :
  exists s, add (PStr (numeral m)) (PStr (numeral n)) = Ok s /\ value s = m + n.
Proof.
  eexists. split; [apply add_numerals_blocks|].
  pose proof (Nat.div_mod_eq m 10) as Em.
  pose proof (Nat.div_mod_eq n 10) as En.
  pose proof (fives_ones (m mod 10) (Nat.mod_upper_bound m 10 ltac:(lia))).
  pose proof (fives_ones (n mod 10) (Nat.mod_upper_bound n 10 ltac:(lia))).
  unfold blocks. rewrite canonicalise_value. lia.
Qed.

(** X9: a result can be added to again: for inputs without "IX" directly
    followed by 'V', the result of [add] together with a third such string
    over I, V, X is accepted, and the value of the second result is the sum
    of the three values. *)
Theorem add_add_value (a b c s : str) :
  occursb #"IXV" a = false ->
  occursb #"IXV" b = false ->
  occursb #"IXV" c = false ->
  Forall (fun x => In x ROMAN_NUMERALS) c ->
  add (PStr a) (PStr b) = Ok s ->
  exists t, add (PStr s) (PStr c) = Ok t /\
            value t = value a + value b + value c.
Proof.
  intros Ha Hb Hc Rc H.
  destruct (add_sum_value a b s Ha Hb H) as (Vs & Hs & Rs).
  assert (A : Forall roman (expand s ++ expand c)).
  { apply Forall_app. split; now apply expand_roman. }
  eexists. split; [apply (add_ok s c A)|].
  destruct (add_sum_value s c _ Hs Hc (add_ok s c A)) as (Vt & _ & _).
  rewrite Vt, Vs. reflexivity.
Qed.

Lemma add_add_value_witness :
  occursb #"IXV" #"IX" = false /\
  occursb #"IXV" #"VII" = false /\
  occursb #"IXV" #"IV" = false /\
  Forall (fun x => In x ROMAN_NUMERALS) #"IV" /\
  add (PStr #"IX") (PStr #"VII") = Ok #"VXI" /\
  exists t, add (PStr #"VXI") (PStr #"IV") = Ok t /\
            value t = value #"IX" + value #"VII" + value #"IV".
Proof.
  split; [reflexivity|]. split; [reflexivity|]. split; [reflexivity|].
  assert (R : Forall (fun x => In x ROMAN_NUMERALS) #"IV").
  { apply Forall_cons; [apply roman_I|].
    apply Forall_cons; [apply roman_V|apply Forall_nil]. }
  split; [exact R|]. split; [reflexivity|].
  apply (add_add_value #"IX" #"VII" #"IV" #"VXI"); try reflexivity. exact R.
Defined.

(** X10: however long the inputs, a result never has more than three I or
    more than two V, and never an "IX" directly followed by 'V'. *)
Theorem add_result_counts (a b s : str) :
  add (PStr a) (PStr b) = Ok s ->
  count "I" s <= 3 /\ count "V" s <= 2 /\ occursb #"IXV" s = false.
Proof.
  intros H. apply add_ok_blocks in H as (x & v & i & ->).
  destruct (canonicalise_blocks_counts x v i) as [HI HV].
  repeat split; try assumption. apply canonicalise_blocks_no_IXV.
Qed.

Lemma add_result_counts_witness :
  add (PStr #"VIIIIIIIIIIIIIIII") (PStr #"") = Ok #"VXVI" /\
  count "I" #"VXVI" <= 3 /\ count "V" #"VXVI" <= 2 /\
  occursb #"IXV" #"VXVI" = false.
Proof.
  split; [reflexivity|].
  apply (add_result_counts #"VIIIIIIIIIIIIIIII" #"" #"VXVI"). reflexivity.
Defined.

(** X11: the expansion of the numeral of any number has no subtractive pair
    left: it is the tens as X, then a V when the units are 5 to 8, then the
    I, and its symbols add up to the number. *)
Theorem expand_numeral_additive (n : nat) :
  expand (numeral n) =
    repeat "X" (n / 10) ++
    repeat "V" (if (5 <=? n mod 10)%nat && (n mod 10 <=? 8)%nat then 1 else 0) ++
    repeat "I" (ones (n mod 10)) /\
  additive_value (expand (numeral n)) = n.
Proof.
  split; [apply expand_numeral|].
  rewrite expand_numeral. unfold blocks. rewrite additive_value_blocks.
  pose proof (Nat.div_mod_eq n 10) as E.
  pose proof (fives_ones (n mod 10) (Nat.mod_upper_bound n 10 ltac:(lia))).
  lia.
Qed.

(** X12: for a non-empty pattern, [s.replace(old, new)] is the one string
    obtained by replacing the leftmost occurrence of [old], keeping what is
    before it, not reading the inserted text again, and going on in the same
    way after the occurrence. *)
Theorem replace_leftmost_first (old new s t : str) :
  old <> [] ->
  t = PyStr.replace old new s <-> Replaced old new s t.
Proof. intros H. symmetry. now apply replace_spec. Qed.

Lemma replace_leftmost_first_witness :
  #"VV" <> [] /\
  (#"XV" = PyStr.replace #"VV" #"X" #"VVV" <-> Replaced #"VV" #"X" #"VVV" #"XV").
Proof.
  split; [discriminate|].
  apply (replace_leftmost_first #"VV" #"X" #"VVV" #"XV"). discriminate.
Defined.
